(** * eDSP: the Perlin noise generator and the statistical moment

    A shallow embedding of
    [include/easy/dsp/random/noise/perlin_noise_generator.hpp] and of
    [include/easy/dsp/statistics/moment.hpp].

    Modelling choices.
    - [value_type] arithmetic is carried out over the exact rationals [Q];
      rounding of a machine floating-point type is out of the model.
      Results are therefore compared with [==] ([Qeq]).
    - Integers ([std::int64_t] indices, table entries, clock ticks) are [Z];
      the bit mask [& 0xFF] is [Z.land _ 255].
    - [std::array<T, 512>::operator[]] performs no bounds check; reading
      outside the array is modelled as [None], so that a sample is
      [Some v] exactly when every table access was in range.
    - The engine and the distribution are the template parameter of the
      class: they are an interface ([UniformRandomBitGenerator]) here, and
      the sampler threads the engine state explicitly. *)

From Stdlib Require Import ZArith QArith Qround Qabs Qpower Lia Lqa.
From stdpp Require Import base option list.

Local Open Scope Z_scope.

(** ** [namespace internal]: fade, lerp, grad *)

Module internal.

(** [return t * t * t * (t * (t * 6 - 15) + 10);] *)
Definition fade (t : Q) : Q :=
  (t * t * t * (t * (t * 6 - 15) + 10))%Q.

(** [return a + t * (b - a);] *)
Definition lerp (t a b : Q) : Q :=
  (a + t * (b - a))%Q.

(** [return (hash & 1) == 0 ? x : -x;] *)
Definition grad (hash : Z) (x : Q) : Q :=
  if Z.land hash 1 =? 0 then x else (- x)%Q.

End internal.

Import internal.

(** ** The permutation table *)

(** The brace-enclosed initializer of [permutation], as written. *)
Definition permutation_initializer : list Z :=
  [151; 160; 137; 91; 90; 15; 131; 13; 201; 95; 96; 53; 194; 233; 7; 225; 140; 36; 103; 30;
   69; 142; 8; 99; 37; 240; 21; 10; 23; 190; 6; 148; 247; 120; 234; 75; 0; 26; 197; 62;
   94; 252; 219; 203; 117; 35; 11; 32; 57; 177; 33; 88; 237; 149; 56; 87; 174; 20; 125; 136;
   171; 168; 68; 175; 74; 165; 71; 134; 139; 48; 27; 166; 77; 146; 158; 231; 83; 111; 229; 122;
   60; 211; 133; 230; 220; 105; 92; 41; 55; 46; 245; 40; 244; 102; 143; 54; 65; 25; 63; 161;
   1; 216; 80; 73; 209; 76; 132; 187; 208; 89; 18; 169; 200; 196; 135; 130; 116; 188; 159; 86;
   164; 100; 109; 198; 173; 186; 3; 64; 52; 217; 226; 250; 124; 123; 5; 202; 38; 147; 118; 126;
   255; 82; 85; 212; 207; 206; 59; 227; 47; 16; 58; 17; 182; 189; 28; 42; 223; 183; 170; 213;
   119; 248; 152; 2; 44; 154; 163; 70; 221; 153; 101; 155; 167; 43; 172; 9; 129; 22; 39; 253;
   19; 98; 108; 110; 79; 113; 224; 232; 178; 185; 112; 104; 218; 246; 97; 228; 251; 34; 242; 193;
   238; 210; 144; 12; 191; 179; 162; 241; 81; 51; 145; 235; 249; 14; 239; 107; 49; 192; 214; 31;
   181; 199; 106; 157; 184; 84; 204; 176; 115; 121; 50; 45; 127; 4; 150; 254; 138; 236; 205; 93;
   222; 114; 67; 29; 24; 72; 243; 141; 128; 195; 78; 66; 215; 61; 156; 180].

(** Aggregate initialization of a [std::array<T, n>]: the listed values
    fill the first slots, every remaining slot is value-initialized,
    which is zero for an arithmetic [T]. *)
Definition array_init (n : nat) (init : list Z) : list Z :=
  take n init ++ replicate (n - length init) 0.

(** [static constexpr const std::array<T, 512> permutation = {{ ... }};] *)
Definition permutation : list Z :=
  array_init 512 permutation_initializer.

(** [a[i]] for a signed index [i]: [None] stands for an access outside
    the array (a negative [i] converts to a huge [size_t]). *)
Definition subscript (a : list Z) (i : Z) : option Z :=
  if 0 <=? i then a !! Z.to_nat i else None.

(** [permutation[i]] read as a value; an access outside the table reads
    as [0] here, and [subscript_in_range] is what rules it out. *)
Definition entry (i : Z) : Z := default 0 (subscript permutation i).

(** ** The body of [operator()] after the draw *)

(** [static_cast<std::int64_t>(random_value)]: truncation toward zero.
    The conversion is defined when the truncated value fits in 64 bits,
    which holds for every draw of the distribution. *)
Definition static_cast_int64 (random_value : Q) : Z :=
  Z.quot (Qnum random_value) (Z.pos (Qden random_value)).

(** [static_cast<std::int64_t>(random_value) & 0xFF] *)
Definition index_of (random_value : Q) : Z :=
  Z.land (static_cast_int64 random_value) 255.

(** [random_value - std::floor(random_value)] (the local the source
    names [floor_value]). *)
Definition floor_value_of (random_value : Q) : Q :=
  (random_value - inject_Z (Qfloor random_value))%Q.

(** Lines 70-75 of the source, for a table [tbl] and a draw
    [random_value]. *)
Definition sample_with (tbl : list Z) (random_value : Q) : option Q :=
  let index := index_of random_value in
  let floor_value := floor_value_of random_value in
  let fade_value := fade random_value in
  h0 ← subscript tbl index;
  h1 ← subscript tbl (index + 1);
  Some (lerp fade_value (grad h0 floor_value) (grad h1 (floor_value - 1)) * 2)%Q.

Definition sample (random_value : Q) : option Q :=
  sample_with permutation random_value.

(** ** The sampler: engine, distribution, [operator()] *)

(** The [Engine] template parameter together with
    [std::uniform_int_distribution]: an engine is built from a seed, and
    a draw over the closed range [[a, b]] consumes engine state and
    yields an integer of that range. *)
Class UniformRandomBitGenerator (Engine : Type) := {
  seed_engine : Z -> Engine;
  draw : Z -> Z -> Engine -> Z * Engine;
  draw_in_range : forall a b g, a <= b -> a <= (draw a b g).1 <= b
}.

Section Sampler.

Context {Engine : Type} `{UniformRandomBitGenerator Engine}.

(** The two data members. [distribution_] is represented by its bounds. *)
Record perlin_noise_generator := {
  generator_ : Engine;
  distribution_ : Z * Z
}.

(** [static_cast<std::size_t>(...)] of the clock's tick count. *)
Definition static_cast_size_t (n : Z) : Z := n mod 2 ^ 64.

(** The constructor; [now] is
    [std::chrono::system_clock::now().time_since_epoch().count()]. *)
Definition construct (now : Z) : perlin_noise_generator :=
  {| generator_ := seed_engine (static_cast_size_t now);
     distribution_ := (0, 511) |}.

(** [const auto random_value = distribution_(generator_);] returns the
    draw and the sampler with its engine advanced. *)
Definition next_draw (s : perlin_noise_generator) : Z * perlin_noise_generator :=
  let '(r, g) := draw (distribution_ s).1 (distribution_ s).2 (generator_ s) in
  (r, {| generator_ := g; distribution_ := distribution_ s |}).

(** [operator()]: the produced value and the sampler afterwards. *)
Definition call (s : perlin_noise_generator) : option Q * perlin_noise_generator :=
  let '(r, s') := next_draw s in
  (sample (inject_Z r), s').

(** [n] successive calls: the outputs in order, and the final sampler. *)
Fixpoint call_n (n : nat) (s : perlin_noise_generator)
  : list (option Q) * perlin_noise_generator :=
  match n with
  | O => ([], s)
  | S n' =>
      let '(v, s') := call s in
      let '(vs, s'') := call_n n' s' in
      (v :: vs, s'')
  end.

(** The draws of [n] successive calls. *)
Fixpoint draws_n (n : nat) (s : perlin_noise_generator) : list Z :=
  match n with
  | O => []
  | S n' => (next_draw s).1 :: draws_n n' (next_draw s).2
  end.

(** The state every constructed sampler is in, and stays in. *)
Definition ready (s : perlin_noise_generator) : Prop :=
  distribution_ s = (0, 511).

End Sampler.

Arguments perlin_noise_generator Engine : clear implicits.

(** ** The closed form of the specification

    Section 4.1, steps 2 to 7, written after the specification's words
    and independently of the kernel above: truncation by cases on the
    sign, the fade curve as a polynomial, the gradient by parity. The
    table is the one of the source. *)

Module Spec.

Definition trunc (r : Q) : Z :=
  if Qle_bool 0 r then Qfloor r else Qceiling r.

Definition fade_curve (t : Q) : Q :=
  (t ^ 3 * (t * (6 * t - 15) + 10))%Q.

Definition grad_rule (h : Z) (x : Q) : Q :=
  if Z.even h then x else (- x)%Q.

Definition closed_form (r : Q) : Q :=
  let index := Z.land (trunc r) 255 in
  let frac := (r - inject_Z (Qfloor r))%Q in
  let fadeVal := fade_curve r in
  let g0 := grad_rule (entry index) frac in
  let g1 := grad_rule (entry (index + 1)) (frac - 1) in
  (2 * (g0 + fadeVal * (g1 - g0)))%Q.

End Spec.

(** ** The statistical moment

    [include/easy/dsp/statistics/moment.hpp]. The range [[first, last)]
    is the list of its elements, in order. Sums and the quotient are
    exact in [Q], where the source computes them in the element type;
    the theorems kept below are those that do not rest on that exactness.
    The quotient by the element count has no value in [Q] when the range
    is empty (the source divides by zero there), which is [None]. The two-argument overload of
    [moment] obtains the mean from [mean.hpp], which is not part of the
    sources at hand; the overload taking the mean is the one embedded. *)

Module statistics.

(** The loop of [nthPower]: [for (int i = 1; i < N; ++i) ret *= x;],
    with the number of iterations left to run. *)
Fixpoint nthPower_loop (iterations : nat) (x ret : Q) : Q :=
  match iterations with
  | O => ret
  | S k => nthPower_loop k x (ret * x)%Q
  end.

(** [T ret = x; for (...) {...} return ret;] for the template argument
    [N]; the loop body runs [N - 1] times, and not at all when [N <= 1]. *)
Definition nthPower (N : Z) (x : Q) : Q :=
  nthPower_loop (Z.to_nat (N - 1)) x x.

(** [struct SumDiffNthPower]: the functor holds the mean. *)
Record SumDiffNthPower := { mean_ : Q }.

(** [return sum + nthPower<N>(current - mean_);] *)
Definition SumDiffNthPower_call (N : Z) (f : SumDiffNthPower) (sum current : Q) : Q :=
  (sum + nthPower N (current - mean_ f))%Q.

(** [std::accumulate(first, last, init, op)]: a left fold. *)
Definition accumulate (range : list Q) (init : Q) (op : Q -> Q -> Q) : Q :=
  fold_left op range init.

(** [nthMoment]: [cnt = std::distance(first, last)], then
    [std::accumulate(first, last, T(), SumDiffNthPower<T, N>(mean)) / cnt]. *)
Definition nthMoment (N : Z) (range : list Q) (mean : Q) : option Q :=
  let cnt := Z.of_nat (length range) in
  let total := accumulate range 0%Q (SumDiffNthPower_call N {| mean_ := mean |}) in
  if cnt =? 0 then None else Some (total / inject_Z cnt)%Q.

(** [moment<N>(first, last, mean)], [N] a [std::size_t]. *)
Definition moment (N : nat) (range : list Q) (mean : Q) : option Q :=
  nthMoment (Z.of_nat N) range mean.

End statistics.

(** The sum of a list of rationals, for stating what the folds compute. *)
Definition Qsum (l : list Q) : Q := fold_right Qplus 0%Q l.

(** [fade] on an integer, computed in [Z]. *)
Definition fade_Z (z : Z) : Z := z * z * z * (z * (z * 6 - 15) + 10).

(** ** A deterministic engine to run the sampler on

    A Lehmer generator with the constants of [std::minstd_rand]; the draw
    over [[a, b]] reduces the engine's output modulo the width of the
    range. *)

Module TestDouble.

Definition lehmer_seed (x : Z) : Z :=
  if x mod 2147483647 =? 0 then 1 else x mod 2147483647.

Definition lehmer_next (x : Z) : Z := (48271 * x) mod 2147483647.

Definition lehmer_draw (a b g : Z) : Z * Z :=
  let g' := lehmer_next g in (a + g' mod (b - a + 1), g').

#[export] Instance lehmer : UniformRandomBitGenerator Z.
Proof.
  refine {| seed_engine := lehmer_seed; draw := lehmer_draw |}.
  intros a b g Hab. unfold lehmer_draw. cbn [fst].
  pose proof (Z.mod_pos_bound (lehmer_next g) (b - a + 1)). lia.
Defined.

(** The same generator with a count of the draws made so far: a second
    representation of the engine state. *)
Definition counted_draw (a b : Z) (g : Z * nat) : Z * (Z * nat) :=
  let '(r, x) := lehmer_draw a b g.1 in (r, (x, S g.2)).

#[export] Instance lehmer_counted : UniformRandomBitGenerator (Z * nat).
Proof.
  refine {| seed_engine := fun x => (lehmer_seed x, O); draw := counted_draw |}.
  intros a b g Hab. unfold counted_draw, lehmer_draw. cbn [fst].
  pose proof (Z.mod_pos_bound (lehmer_next g.1) (b - a + 1)). lia.
Defined.

End TestDouble.

Import TestDouble.

(** ** Engine states a sampler cannot tell apart

    [R] relates states of two engines, possibly of different types, such
    that related states give the same draw over [[0, 511]] and are
    related again afterwards. Identical states of one engine are the
    case where [R] is equality. *)
Definition draw_simulation
  {E1 E2 : Type} `{UniformRandomBitGenerator E1} `{UniformRandomBitGenerator E2}
  (R : E1 -> E2 -> Prop) : Prop :=
  forall g1 g2, R g1 g2 ->
    (draw 0 511 g1).1 = (draw 0 511 g2).1 /\
    R (draw 0 511 g1).2 (draw 0 511 g2).2.

(** * Proofs *)

(** ** The table *)

Lemma permutation_initializer_length : length permutation_initializer = 256%nat.
Proof. reflexivity. Qed.

Lemma permutation_length : length permutation = 512%nat.
Proof. reflexivity. Qed.

Lemma permutation_unfold :
  permutation = permutation_initializer ++ replicate 256 0.
Proof. reflexivity. Qed.

Lemma permutation_first_half (i : nat) :
  (i < 256)%nat -> permutation !! i = permutation_initializer !! i.
Proof.
  intros Hi. rewrite permutation_unfold.
  apply lookup_app_l. rewrite permutation_initializer_length. exact Hi.
Qed.

Lemma permutation_second_half (i : nat) :
  (256 <= i < 512)%nat -> permutation !! i = Some 0.
Proof.
  intros Hi. rewrite permutation_unfold.
  rewrite lookup_app_r by (rewrite permutation_initializer_length; lia).
  apply lookup_replicate_2. rewrite permutation_initializer_length. lia.
Qed.

Lemma permutation_entries_byte : Forall (fun x => 0 <= x <= 255) permutation.
Proof.
  apply Forall_forall. intros x Hx.
  assert (Hb : forallb (fun x => (0 <=? x) && (x <=? 255)) permutation = true)
    by (vm_compute; reflexivity).
  rewrite forallb_forall in Hb. apply list_elem_of_In in Hx.
  specialize (Hb x Hx). lia.
Qed.

Lemma subscript_in_range (a : list Z) (i : Z) :
  0 <= i < Z.of_nat (length a) -> is_Some (subscript a i).
Proof.
  intros Hi. unfold subscript.
  destruct (Z.leb_spec 0 i); [|lia].
  apply lookup_lt_is_Some. lia.
Qed.

Lemma subscript_out_of_range (a : list Z) (i : Z) :
  i < 0 \/ Z.of_nat (length a) <= i -> subscript a i = None.
Proof.
  intros Hi. unfold subscript.
  destruct (Z.leb_spec 0 i); [|reflexivity].
  apply lookup_ge_None. lia.
Qed.

Lemma subscript_insert_eq (a : list Z) (i x : Z) :
  0 <= i < Z.of_nat (length a) ->
  subscript (<[Z.to_nat i := x]> a) i = Some x.
Proof.
  intros Hi. unfold subscript. destruct (Z.leb_spec 0 i); [|lia].
  apply list_lookup_insert_eq. lia.
Qed.

Lemma subscript_insert_ne (a : list Z) (i j x : Z) :
  0 <= i -> i <> j ->
  subscript (<[Z.to_nat i := x]> a) j = subscript a j.
Proof.
  intros Hi Hij. unfold subscript. destruct (Z.leb_spec 0 j); [|reflexivity].
  apply list_lookup_insert_ne. lia.
Qed.

Lemma entry_subscript (i : Z) :
  0 <= i < 512 -> subscript permutation i = Some (entry i).
Proof.
  intros Hi. unfold entry.
  destruct (subscript_in_range permutation i) as [x Hx].
  - rewrite permutation_length. lia.
  - rewrite Hx. reflexivity.
Qed.

(** ** The kernel's pieces *)

Lemma land_1_even (h : Z) : (Z.land h 1 =? 0) = Z.even h.
Proof.
  change 1 with (Z.ones 1). rewrite Z.land_ones by lia.
  change (2 ^ 1) with 2. rewrite Zmod_even.
  destruct (Z.even h); reflexivity.
Qed.

Lemma land_255_range (x : Z) : 0 <= Z.land x 255 <= 255.
Proof.
  assert (Hmask : Z.land x 255 = x mod 256)
    by (change 255 with (Z.ones 8); rewrite Z.land_ones by lia; reflexivity).
  rewrite Hmask. pose proof (Z.mod_pos_bound x 256). lia.
Qed.

Lemma index_of_range (r : Q) : 0 <= index_of r <= 255.
Proof. apply land_255_range. Qed.

Lemma static_cast_int64_inject_Z (z : Z) : static_cast_int64 (inject_Z z) = z.
Proof. unfold static_cast_int64. simpl. apply Z.quot_1_r. Qed.

Lemma index_of_inject_Z (z : Z) : index_of (inject_Z z) = Z.land z 255.
Proof. unfold index_of. rewrite static_cast_int64_inject_Z. reflexivity. Qed.

Lemma floor_value_of_inject_Z (z : Z) : (floor_value_of (inject_Z z) == 0)%Q.
Proof. unfold floor_value_of. rewrite Qfloor_Z. ring. Qed.

Lemma floor_value_of_bounds (r : Q) :
  (0 <= floor_value_of r)%Q /\ (floor_value_of r < 1)%Q.
Proof.
  unfold floor_value_of.
  pose proof (Qfloor_le r) as Hlo. pose proof (Qlt_floor r) as Hhi.
  rewrite inject_Z_plus in Hhi. change (inject_Z 1) with 1%Q in Hhi.
  split; lra.
Qed.

#[export] Instance grad_proper (h : Z) : Proper (Qeq ==> Qeq) (grad h).
Proof.
  intros x y Hxy. unfold grad.
  destruct (Z.land h 1 =? 0); rewrite Hxy; reflexivity.
Qed.

#[export] Instance lerp_proper : Proper (Qeq ==> Qeq ==> Qeq ==> Qeq) lerp.
Proof.
  intros t t' Ht a a' Ha b b' Hb. unfold lerp.
  rewrite Ht, Ha, Hb. reflexivity.
Qed.

#[export] Instance fade_proper : Proper (Qeq ==> Qeq) fade.
Proof. intros t t' Ht. unfold fade. rewrite Ht. reflexivity. Qed.

(** The kernel never leaves the table, whatever the draw: the mask keeps
    [index] below 256, and the table has 512 slots. *)
Lemma sample_unfold (r : Q) :
  sample r =
  Some (lerp (fade r)
             (grad (entry (index_of r)) (floor_value_of r))
             (grad (entry (index_of r + 1)) (floor_value_of r - 1)) * 2)%Q.
Proof.
  pose proof (index_of_range r) as Hi.
  unfold sample, sample_with.
  rewrite !entry_subscript by lia. reflexivity.
Qed.

(** ** The sampler *)

Section SamplerFacts.

Context {Engine : Type} `{UniformRandomBitGenerator Engine}.

Implicit Types s : perlin_noise_generator Engine.

Lemma construct_ready (now : Z) : ready (construct now).
Proof. reflexivity. Qed.

Lemma next_draw_range s : ready s -> 0 <= (next_draw s).1 <= 511.
Proof.
  unfold ready, next_draw. intros Hs. rewrite Hs. cbn [fst snd].
  pose proof (draw_in_range 0 511 (generator_ s)) as Hr.
  destruct (draw 0 511 (generator_ s)) as [r g]. cbn [fst] in *. lia.
Qed.

Lemma next_draw_ready s : ready s -> ready (next_draw s).2.
Proof.
  unfold ready, next_draw. intros Hs.
  destruct (draw _ _ _) as [r g]. exact Hs.
Qed.

Lemma call_unfold s :
  call s = (sample (inject_Z (next_draw s).1), (next_draw s).2).
Proof. unfold call. destruct (next_draw s) as [r s']. reflexivity. Qed.

Lemma call_ready s : ready s -> ready (call s).2.
Proof. rewrite call_unfold. apply next_draw_ready. Qed.

Lemma call_n_outputs (n : nat) s :
  (call_n n s).1 = (fun r => sample (inject_Z r)) <$> draws_n n s.
Proof.
  revert s. induction n as [|n IH]; intros s; [reflexivity|].
  cbn [call_n draws_n]. rewrite call_unfold.
  specialize (IH (next_draw s).2).
  destruct (call_n n (next_draw s).2) as [vs s'']. cbn [fst] in *.
  rewrite IH. reflexivity.
Qed.

Lemma draws_n_range (n : nat) s :
  ready s -> Forall (fun r => 0 <= r <= 511) (draws_n n s).
Proof.
  revert s. induction n as [|n IH]; intros s Hs; cbn [draws_n].
  - constructor.
  - constructor; [apply next_draw_range, Hs | apply IH, next_draw_ready, Hs].
Qed.

Lemma call_n_ready (n : nat) s : ready s -> ready (call_n n s).2.
Proof.
  revert s. induction n as [|n IH]; intros s Hs; [exact Hs|].
  cbn [call_n]. pose proof (call_ready s Hs) as Hs'.
  destruct (call s) as [v s']. specialize (IH s' Hs').
  destruct (call_n n s') as [vs s'']. exact IH.
Qed.

(** No call of a constructed sampler reads outside the table. *)
Lemma call_n_all_some (n : nat) s : Forall is_Some (call_n n s).1.
Proof.
  rewrite call_n_outputs. apply Forall_fmap, Forall_forall.
  intros r _. simpl. rewrite sample_unfold. eexists. reflexivity.
Qed.

(** A draw of the integer distribution has no fractional part, so no
    call of the sampler runs the kernel at a [floor_value] other than
    zero. *)
Lemma draw_has_no_fraction s (q : Q) :
  (floor_value_of (inject_Z (next_draw s).1) == q)%Q -> (q == 0)%Q.
Proof. intros Hq. rewrite <- Hq. apply floor_value_of_inject_Z. Qed.

End SamplerFacts.

Lemma grad_rule_eq (h : Z) (x : Q) : grad h x = Spec.grad_rule h x.
Proof. unfold grad, Spec.grad_rule. rewrite land_1_even. reflexivity. Qed.

Lemma fade_curve_eq (t : Q) : (fade t == Spec.fade_curve t)%Q.
Proof. unfold fade, Spec.fade_curve. ring. Qed.

Lemma trunc_eq (r : Q) : static_cast_int64 r = Spec.trunc r.
Proof.
  unfold static_cast_int64, Spec.trunc, Qceiling, Qfloor, Qle_bool.
  destruct r as [n d]. cbn [Qnum Qden Qopp].
  rewrite Z.mul_1_r. change (0 * Z.pos d) with 0.
  destruct (Z.leb_spec 0 n) as [Hn|Hn].
  - apply Z.quot_div_nonneg; lia.
  - rewrite <- (Z.opp_involutive n) at 1. rewrite Z.quot_opp_l by lia.
    rewrite Z.quot_div_nonneg by lia. reflexivity.
Qed.

Lemma sample_closed_form (r : Q) :
  exists v : Q, sample r = Some v /\ (v == Spec.closed_form r)%Q.
Proof.
  eexists. split; [apply sample_unfold|].
  unfold Spec.closed_form, index_of, floor_value_of, lerp.
  rewrite <- trunc_eq, <- !grad_rule_eq, <- fade_curve_eq. ring.
Qed.

(** ** The claims *)

(** C1: for every draw [r] of a ready sampler (a draw of the uniform
    integer distribution over [[0, 511]]), [operator()] returns a value,
    and that value is [2 * lerp(fadeVal, g0, g1)], which is the closed
    form [2 * (g0 + fadeVal * (g1 - g0))] of the specification computed
    from the same [r]. *)
Theorem call_closed_form
  {Engine : Type} `{UniformRandomBitGenerator Engine}
  (s : perlin_noise_generator Engine) :
  ready s ->
  let r := (next_draw s).1 in
  0 <= r <= 511 /\
  exists v : Q,
    (call s).1 = Some v /\
    (v == 2 * lerp (fade (inject_Z r))
                   (grad (entry (index_of (inject_Z r))) (floor_value_of (inject_Z r)))
                   (grad (entry (index_of (inject_Z r) + 1))
                         (floor_value_of (inject_Z r) - 1)))%Q /\
    (v == Spec.closed_form (inject_Z r))%Q.
Proof.
  intros Hs r. split; [apply next_draw_range, Hs|].
  rewrite call_unfold. cbn [fst]. fold r.
  destruct (sample_closed_form (inject_Z r)) as [v [Hv Hc]].
  exists v. split; [exact Hv|]. split; [|exact Hc].
  rewrite sample_unfold in Hv. injection Hv as <-. ring.
Qed.

Lemma call_closed_form_witness :
  let s := construct (Engine := Z) 2018 in
  let r := (next_draw s).1 in
  0 <= r <= 511 /\
  exists v : Q,
    (call s).1 = Some v /\
    (v == 2 * lerp (fade (inject_Z r))
                   (grad (entry (index_of (inject_Z r))) (floor_value_of (inject_Z r)))
                   (grad (entry (index_of (inject_Z r) + 1))
                         (floor_value_of (inject_Z r) - 1)))%Q /\
    (v == Spec.closed_form (inject_Z r))%Q.
Proof.
  intros s. apply (call_closed_form s). reflexivity.
Defined.

(** C2: the table has 512 entries, all in [[0, 255]]; but its second
    half does not repeat the first: position 256 holds 0 while position
    0 holds 151. The first draw whose paired lookup lands there is 255. *)
Theorem permutation_second_half_differs :
  length permutation = 512%nat /\
  Forall (fun x => 0 <= x <= 255) permutation /\
  subscript permutation 0 = Some 151 /\
  subscript permutation (0 + 256) = Some 0 /\
  subscript permutation (0 + 256) <> subscript permutation 0 /\
  index_of (inject_Z 255) + 1 = 256.
Proof.
  split; [exact permutation_length|].
  split; [exact permutation_entries_byte|].
  repeat split; try reflexivity. discriminate.
Qed.

(** C3: for every draw [r] in [[0, 511]], [index = floor(r) AND 0xFF]
    lies in [[0, 255]] and [index + 1] in [[1, 256]]; both are offsets
    inside the 512-entry table, both lookups succeed, and the sampling
    operation yields a value rather than an out-of-range access. *)
Theorem sampling_in_bounds (r : Z) :
  0 <= r <= 511 ->
  let index := index_of (inject_Z r) in
  index = Z.land (Qfloor (inject_Z r)) 255 /\
  0 <= index <= 255 /\
  1 <= index + 1 <= 256 /\
  index + 1 < Z.of_nat (length permutation) /\
  is_Some (subscript permutation index) /\
  is_Some (subscript permutation (index + 1)) /\
  is_Some (sample (inject_Z r)).
Proof.
  intros Hr index.
  pose proof (index_of_range (inject_Z r)) as Hi. fold index in Hi.
  rewrite permutation_length.
  split; [unfold index; rewrite index_of_inject_Z, Qfloor_Z; reflexivity|].
  repeat (split; [lia|]).
  split; [|split].
  - apply subscript_in_range. rewrite permutation_length. lia.
  - apply subscript_in_range. rewrite permutation_length. lia.
  - rewrite sample_unfold. eexists. reflexivity.
Qed.

Lemma sampling_in_bounds_witness :
  let index := index_of (inject_Z 511) in
  index = Z.land (Qfloor (inject_Z 511)) 255 /\
  0 <= index <= 255 /\
  1 <= index + 1 <= 256 /\
  index + 1 < Z.of_nat (length permutation) /\
  is_Some (subscript permutation index) /\
  is_Some (subscript permutation (index + 1)) /\
  is_Some (sample (inject_Z 511)).
Proof. apply (sampling_in_bounds 511). lia. Defined.

(** C4: for every integer [h] and every [x], [grad h x] is [x] when [h]
    is even and [-x] when [h] is odd. The quantification covers zero and
    negative [x]; at [x = 0] both branches are zero. *)
Theorem grad_parity (h : Z) (x : Q) :
  grad h x = (if Z.even h then x else - x)%Q /\
  Z.odd h = negb (Z.even h) /\
  (grad h 0 == 0)%Q /\
  grad h (- x) = (if Z.even h then - x else - - x)%Q.
Proof.
  unfold grad. rewrite land_1_even, <- Z.negb_even.
  destruct (Z.even h); repeat split; reflexivity.
Qed.

(** C5: [fade t] is the quintic [t^3 * (t * (6t - 15) + 10)] for every
    [t]; and the sampling operation weighs its two gradients by [fade]
    of the raw draw, which is not what [fade] of the fractional part
    would give: at the draw 1 the two differ. *)
Theorem fade_quintic_of_raw_draw :
  (forall t : Q, fade t == t ^ 3 * (t * (6 * t - 15) + 10))%Q /\
  (forall r : Q,
     sample r =
     Some (lerp (fade r)
                (grad (entry (index_of r)) (floor_value_of r))
                (grad (entry (index_of r + 1)) (floor_value_of r - 1)) * 2)%Q) /\
  (exists v : Q,
     sample (inject_Z 1) = Some v /\
     ~ (v == lerp (fade (floor_value_of (inject_Z 1)))
                  (grad (entry (index_of (inject_Z 1))) (floor_value_of (inject_Z 1)))
                  (grad (entry (index_of (inject_Z 1) + 1))
                        (floor_value_of (inject_Z 1) - 1)) * 2)%Q).
Proof.
  split; [intros t; unfold fade; ring|].
  split; [exact sample_unfold|].
  eexists. split; [apply sample_unfold|].
  vm_compute. discriminate.
Qed.

(** C6: in every call the body of [operator()] passes
    [frac = r - floor(r)] to the first gradient and [frac - 1] to the
    second; [frac] is a fractional part in [[0, 1)]; and on the
    integer-valued draws the distribution produces it is zero, so every
    call returns [lerp(fade r, grad(h0, 0), grad(h1, 0 - 1)) * 2]. *)
Theorem floor_value_zero_on_draws :
  (forall r : Q,
     sample r =
     Some (lerp (fade r)
                (grad (entry (index_of r)) (r - inject_Z (Qfloor r)))
                (grad (entry (index_of r + 1)) (r - inject_Z (Qfloor r) - 1)) * 2)%Q) /\
  (forall r : Q,
     floor_value_of r = (r - inject_Z (Qfloor r))%Q /\
     (0 <= floor_value_of r)%Q /\ (floor_value_of r < 1)%Q) /\
  (forall z : Z, floor_value_of (inject_Z z) == 0)%Q /\
  (forall (Engine : Type) (E : UniformRandomBitGenerator Engine)
          (s : perlin_noise_generator Engine),
     let r := inject_Z (next_draw s).1 in
     (call s).1 = sample r /\
     (floor_value_of r == 0)%Q /\
     (r - inject_Z (Qfloor r) == 0)%Q /\
     exists v : Q,
       (call s).1 = Some v /\
       (v == lerp (fade r)
                  (grad (entry (index_of r)) 0)
                  (grad (entry (index_of r + 1)) (0 - 1)) * 2)%Q).
Proof.
  split; [|split; [|split]].
  - intros r. rewrite sample_unfold. reflexivity.
  - intros r. split; [reflexivity|apply floor_value_of_bounds].
  - exact floor_value_of_inject_Z.
  - intros Engine E s r. rewrite call_unfold. cbn [fst]. fold r.
    pose proof (floor_value_of_inject_Z (next_draw s).1) as Hf. fold r in Hf.
    split; [reflexivity|]. split; [exact Hf|]. split; [exact Hf|].
    eexists. split; [apply sample_unfold|].
    rewrite Hf. reflexivity.
Qed.

Lemma next_draw_ready_eq
  {Engine : Type} `{UniformRandomBitGenerator Engine}
  (s : perlin_noise_generator Engine) :
  ready s ->
  (next_draw s).1 = (draw 0 511 (generator_ s)).1 /\
  generator_ (next_draw s).2 = (draw 0 511 (generator_ s)).2.
Proof.
  unfold ready, next_draw. intros ->. cbn [fst snd].
  destruct (draw 0 511 (generator_ s)) as [r g]. split; reflexivity.
Qed.

(** Different engine states do give different outputs: the agreement
    below is conditional on the engines. *)
Lemma engine_state_matters :
  (call_n 3 (construct (Engine := Z) 1)).1
  <> (call_n 3 (construct (Engine := Z) 2)).1.
Proof. vm_compute. discriminate. Qed.



(** C8: the scenario [index = 0], [frac = 0.3]. The table holds 151
    (odd) at 0 and 160 (even) at 1, so [g0 = -0.3],
    [g1 = grad(160, -0.7) = -0.7], and the value returned is
    [2 * (-0.3 + fadeVal * (-0.7 - (-0.3)))] with [fadeVal = fade r]. *)
Theorem scenario_index_0_frac_03 (r : Q) :
  index_of r = 0 ->
  (floor_value_of r == 3 # 10)%Q ->
  subscript permutation 0 = Some 151 /\ Z.odd 151 = true /\
  subscript permutation 1 = Some 160 /\ Z.even 160 = true /\
  (grad 151 (floor_value_of r) == - (3 # 10))%Q /\
  (grad 160 (floor_value_of r - 1) == - (7 # 10))%Q /\
  exists v : Q,
    sample r = Some v /\
    (v == 2 * (- (3 # 10) + fade r * (- (7 # 10) - - (3 # 10))))%Q.
Proof.
  intros Hi Hf.
  assert (Hg0 : (grad 151 (floor_value_of r) == - (3 # 10))%Q)
    by (rewrite Hf; reflexivity).
  assert (Hg1 : (grad 160 (floor_value_of r - 1) == - (7 # 10))%Q)
    by (rewrite Hf; reflexivity).
  repeat (split; [first [reflexivity | assumption]|]).
  eexists. split; [apply sample_unfold|].
  rewrite Hi. change (entry 0) with 151. change (entry (0 + 1)) with 160.
  rewrite Hg0, Hg1. unfold lerp. ring.
Qed.

Lemma scenario_index_0_frac_03_witness :
  subscript permutation 0 = Some 151 /\ Z.odd 151 = true /\
  subscript permutation 1 = Some 160 /\ Z.even 160 = true /\
  (grad 151 (floor_value_of (3 # 10)) == - (3 # 10))%Q /\
  (grad 160 (floor_value_of (3 # 10) - 1) == - (7 # 10))%Q /\
  exists v : Q,
    sample (3 # 10) = Some v /\
    (v == 2 * (- (3 # 10) + fade (3 # 10) * (- (7 # 10) - - (3 # 10))))%Q.
Proof. apply (scenario_index_0_frac_03 (3 # 10)); reflexivity. Defined.

(** C9: the initializer lists 256 values for 512 slots, and every entry
    at the positions 256 to 511 is zero. *)
Theorem permutation_upper_half_zero (i : Z) :
  256 <= i <= 511 ->
  length permutation_initializer = 256%nat /\
  length permutation = 512%nat /\
  subscript permutation i = Some 0.
Proof.
  intros Hi. split; [reflexivity|]. split; [reflexivity|].
  unfold subscript. destruct (Z.leb_spec 0 i); [|lia].
  apply permutation_second_half. lia.
Qed.

Lemma permutation_upper_half_zero_witness :
  length permutation_initializer = 256%nat /\
  length permutation = 512%nat /\
  subscript permutation 256 = Some 0.
Proof. apply (permutation_upper_half_zero 256). lia. Defined.

(** C10: for an integer-valued draw [r] in [[0, 511]], [frac = 0] makes
    [g0 = 0] and [g1 = grad(permutation[index + 1], -1)], so the value
    returned is [2 * fade r] when [permutation[index + 1]] is odd and
    [-2 * fade r] when it is even; overwriting [permutation[index]] with
    any value leaves the result unchanged. *)
Theorem integral_draw_value (r : Z) :
  0 <= r <= 511 ->
  let index := Z.land r 255 in
  index_of (inject_Z r) = index /\
  (grad (entry index) (floor_value_of (inject_Z r)) == 0)%Q /\
  (grad (entry (index + 1)) (floor_value_of (inject_Z r) - 1)
   == grad (entry (index + 1)) (- (1)))%Q /\
  (exists v : Q,
     sample (inject_Z r) = Some v /\
     (v == if Z.odd (entry (index + 1))
           then 2 * fade (inject_Z r)
           else - (2) * fade (inject_Z r))%Q) /\
  (forall x : Z,
     option_Forall2 Qeq
       (sample_with (<[Z.to_nat index := x]> permutation) (inject_Z r))
       (sample (inject_Z r))).
Proof.
  intros Hr index.
  pose proof (land_255_range r) as Hi. fold index in Hi.
  pose proof (floor_value_of_inject_Z r) as Hf.
  assert (Hg0 : forall h, (grad h (floor_value_of (inject_Z r)) == 0)%Q).
  { intros h. rewrite Hf. unfold grad. destruct (_ =? _); reflexivity. }
  split; [apply index_of_inject_Z|].
  split; [apply Hg0|].
  split; [rewrite Hf; reflexivity|].
  split.
  - eexists. split; [apply sample_unfold|].
    rewrite index_of_inject_Z. fold index.
    rewrite Hg0, Hf. unfold grad, lerp.
    rewrite land_1_even, <- Z.negb_odd.
    destruct (Z.odd (entry (index + 1))); cbn [negb]; ring.
  - intros x. rewrite sample_unfold.
    unfold sample_with. rewrite index_of_inject_Z. fold index.
    rewrite subscript_insert_eq by (rewrite permutation_length; lia).
    rewrite subscript_insert_ne, entry_subscript by lia.
    constructor. rewrite !Hg0. reflexivity.
Qed.

Lemma integral_draw_value_witness :
  let index := Z.land 255 255 in
  index_of (inject_Z 255) = index /\
  (grad (entry index) (floor_value_of (inject_Z 255)) == 0)%Q /\
  (grad (entry (index + 1)) (floor_value_of (inject_Z 255) - 1)
   == grad (entry (index + 1)) (- (1)))%Q /\
  (exists v : Q,
     sample (inject_Z 255) = Some v /\
     (v == if Z.odd (entry (index + 1))
           then 2 * fade (inject_Z 255)
           else - (2) * fade (inject_Z 255))%Q) /\
  (forall x : Z,
     option_Forall2 Qeq
       (sample_with (<[Z.to_nat index := x]> permutation) (inject_Z 255))
       (sample (inject_Z 255))).
Proof. apply (integral_draw_value 255). lia. Defined.

(** * Further properties of the noise generator *)

(** ** The gradient *)

(** X3: [grad] only ever flips the sign. It is its own inverse, keeps
    the absolute value, and depends on [hash] through its parity alone. *)
Theorem grad_sign_only (h k : Z) (x : Q) :
  (grad h (grad h x) == x)%Q /\
  (Qabs (grad h x) == Qabs x)%Q /\
  grad (h + 2 * k) x = grad h x.
Proof.
  unfold grad. rewrite !land_1_even.
  replace (Z.even (h + 2 * k)) with (Z.even h)
    by (rewrite Z.even_add, Z.even_mul; destruct (Z.even h); reflexivity).
  destruct (Z.even h).
  - repeat split; reflexivity.
  - split; [ring|]. split; [apply Qabs_opp|reflexivity].
Qed.

(** ** Which table slots the kernel reads *)

Lemma subscript_is_Some (a : list Z) (i : Z) :
  is_Some (subscript a i) <-> 0 <= i < Z.of_nat (length a).
Proof.
  split; [|apply subscript_in_range].
  unfold subscript. destruct (Z.leb_spec 0 i) as [Hi|Hi].
  - intros Hs. apply lookup_lt_is_Some in Hs. lia.
  - intros [x Hx]. discriminate.
Qed.

Lemma subscript_insert_other (a : list Z) (j : nat) (i x : Z) :
  Z.of_nat j <> i -> subscript (<[j := x]> a) i = subscript a i.
Proof.
  intros Hij. unfold subscript. destruct (Z.leb_spec 0 i); [|reflexivity].
  apply list_lookup_insert_ne. lia.
Qed.

(** X4: over any table, the kernel yields a value exactly when the table
    reaches past [index + 1]; otherwise one of its two reads falls
    outside. As [index + 1] is at most 256, a table of 257 entries
    serves every draw, and a table of 256 does not. *)
Theorem sample_with_defined (tbl : list Z) (r : Q) :
  (is_Some (sample_with tbl r) <-> index_of r + 1 < Z.of_nat (length tbl)) /\
  index_of r + 1 <= 256 /\
  sample_with permutation_initializer (inject_Z 255) = None.
Proof.
  pose proof (index_of_range r) as Hi.
  split; [|split; [lia|reflexivity]].
  unfold sample_with. split.
  - intros [v Hv].
    destruct (subscript tbl (index_of r)) as [h0|]; [|discriminate].
    destruct (subscript tbl (index_of r + 1)) as [h1|] eqn:E1; [|discriminate].
    assert (Hs : is_Some (subscript tbl (index_of r + 1))) by (rewrite E1; eauto).
    apply subscript_is_Some in Hs. lia.
  - intros Hlen.
    destruct (subscript_in_range tbl (index_of r)) as [h0 E0]; [lia|].
    destruct (subscript_in_range tbl (index_of r + 1)) as [h1 E1]; [lia|].
    rewrite E0, E1. eexists. reflexivity.
Qed.

(** X5: the slots 257 to 511 of the table are never read: overwriting
    any of them changes no result of the kernel, for any draw. *)
Theorem upper_slots_never_read (j : nat) (x : Z) (r : Q) :
  (257 <= j)%nat ->
  sample_with (<[j := x]> permutation) r = sample r.
Proof.
  intros Hj. pose proof (index_of_range r) as Hi.
  unfold sample, sample_with.
  rewrite !subscript_insert_other by lia. reflexivity.
Qed.

Lemma upper_slots_never_read_witness :
  sample_with (<[300%nat := 7]> permutation) (inject_Z 511) = sample (inject_Z 511).
Proof. apply (upper_slots_never_read 300 7 (inject_Z 511)). lia. Defined.

(** ** The size of the produced values *)

Lemma fade_inject_Z (z : Z) : (fade (inject_Z z) == inject_Z (fade_Z z))%Q.
Proof.
  unfold fade, fade_Z.
  rewrite !inject_Z_mult, inject_Z_plus, inject_Z_mult.
  unfold Z.sub. rewrite inject_Z_plus, inject_Z_mult, inject_Z_opp.
  change (inject_Z 6) with 6%Q. change (inject_Z 15) with 15%Q.
  change (inject_Z 10) with 10%Q. ring.
Qed.

Lemma fade_Z_quadratic_bounds (z : Z) :
  0 <= z <= 511 -> 1 <= z * (z * 6 - 15) + 10 <= 1559071.
Proof.
  intros Hz.
  assert (Hcases : z = 0 \/ z = 1 \/ z = 2 \/ 3 <= z) by lia.
  destruct Hcases as [->|[->|[->|H3]]]; try lia.
  assert (0 <= z * 6 - 15 <= 3051) by lia.
  split.
  - assert (0 <= z * (z * 6 - 15)) by (apply Z.mul_nonneg_nonneg; lia). lia.
  - assert (z * (z * 6 - 15) <= 511 * 3051) by (apply Z.mul_le_mono_nonneg; lia).
    lia.
Qed.

Lemma fade_Z_cube_bounds (z : Z) :
  0 <= z <= 511 ->
  0 <= z * z * z <= 133432831 /\ (1 <= z -> 1 <= z * z * z).
Proof.
  intros Hz.
  assert (H2 : 0 <= z * z <= 511 * 511)
    by (split; [apply Z.mul_nonneg_nonneg; lia | apply Z.mul_le_mono_nonneg; lia]).
  split; [split|].
  - apply Z.mul_nonneg_nonneg; lia.
  - change 133432831 with (511 * 511 * 511). apply Z.mul_le_mono_nonneg; lia.
  - intros H1. assert (1 * 1 <= z * z) by (apply Z.mul_le_mono_nonneg; lia).
    change 1 with (1 * 1) at 1. apply Z.mul_le_mono_nonneg; lia.
Qed.

Lemma fade_Z_bounds (z : Z) :
  0 <= z <= 511 ->
  0 <= fade_Z z <= 208031257260001 /\ (1 <= z -> 1 <= fade_Z z).
Proof.
  intros Hz. unfold fade_Z.
  destruct (fade_Z_cube_bounds z Hz) as [Hc Hc1].
  pose proof (fade_Z_quadratic_bounds z Hz) as Hq.
  split; [split|].
  - apply Z.mul_nonneg_nonneg; lia.
  - change 208031257260001 with (133432831 * 1559071).
    apply Z.mul_le_mono_nonneg; lia.
  - intros H1. specialize (Hc1 H1).
    change 1 with (1 * 1) at 1. apply Z.mul_le_mono_nonneg; lia.
Qed.

(** On an integer draw the kernel returns twice the fade of the draw,
    signed by the parity of the second table entry. *)
Lemma sample_inject_Z (z : Z) :
  exists v : Q,
    sample (inject_Z z) = Some v /\
    (v == (if Z.odd (entry (Z.land z 255 + 1)) then 2 else - (2))
          * inject_Z (fade_Z z))%Q.
Proof.
  eexists. split; [apply sample_unfold|].
  rewrite index_of_inject_Z, <- fade_inject_Z.
  rewrite (floor_value_of_inject_Z z).
  unfold grad, lerp. rewrite !land_1_even, <- (Z.negb_odd (entry (_ + 1))).
  destruct (Z.even (entry (Z.land z 255)));
    destruct (Z.odd (entry (Z.land z 255 + 1))); cbn [negb]; ring.
Qed.

Lemma sample_magnitude (z : Z) :
  0 <= z <= 511 ->
  exists v : Q,
    sample (inject_Z z) = Some v /\
    (Qabs v == 2 * fade (inject_Z z))%Q /\
    (Qabs v <= 416062514520002)%Q /\
    (z = 0 -> (v == 0)%Q) /\
    (1 <= z -> (2 <= Qabs v)%Q) /\
    (exists k : Z, v == inject_Z (2 * k))%Q.
Proof.
  intros Hz.
  destruct (sample_inject_Z z) as [v [Hv Heq]].
  destruct (fade_Z_bounds z Hz) as [Hb Hb1].
  assert (Hlo : (0 <= inject_Z (fade_Z z))%Q)
    by (change 0%Q with (inject_Z 0); rewrite <- Zle_Qle; lia).
  assert (Hhi : (inject_Z (fade_Z z) <= 208031257260001)%Q)
    by (change 208031257260001%Q with (inject_Z 208031257260001);
        rewrite <- Zle_Qle; lia).
  assert (Habs : (Qabs v == 2 * inject_Z (fade_Z z))%Q).
  { rewrite Heq. destruct (Z.odd _).
    - apply Qabs_pos. lra.
    - rewrite Qabs_neg by lra. ring. }
  exists v. split; [exact Hv|].
  split; [rewrite fade_inject_Z; exact Habs|].
  split; [rewrite Habs; lra|].
  split; [|split].
  - intros ->. rewrite Heq. change (inject_Z (fade_Z 0)) with 0%Q.
    destruct (Z.odd _); ring.
  - intros H1. specialize (Hb1 H1).
    assert ((1 <= inject_Z (fade_Z z))%Q)
      by (change 1%Q with (inject_Z 1); rewrite <- Zle_Qle; lia).
    rewrite Habs. lra.
  - destruct (Z.odd (entry (Z.land z 255 + 1))).
    + exists (fade_Z z). rewrite Heq, inject_Z_mult. reflexivity.
    + exists (- fade_Z z). rewrite Heq, inject_Z_mult, inject_Z_opp.
      change (inject_Z 2) with 2%Q. ring.
Qed.

(** X6: a call of a constructed sampler returns an even integer whose
    absolute value is twice the fade of the draw: at most
    [2 * fade 511 = 416062514520002], zero on the draw 0 and at least 2
    on every other draw. The output is not confined to [[-1, 1]]. *)
Theorem call_output_magnitude
  {Engine : Type} `{UniformRandomBitGenerator Engine}
  (s : perlin_noise_generator Engine) :
  ready s ->
  let r := (next_draw s).1 in
  exists v : Q,
    (call s).1 = Some v /\
    (Qabs v == 2 * fade (inject_Z r))%Q /\
    (Qabs v <= 416062514520002)%Q /\
    (r = 0 -> (v == 0)%Q) /\
    (1 <= r -> (2 <= Qabs v)%Q) /\
    (exists k : Z, v == inject_Z (2 * k))%Q.
Proof.
  intros Hs r. rewrite call_unfold. cbn [fst]. fold r.
  apply sample_magnitude. apply next_draw_range, Hs.
Qed.

Lemma call_output_magnitude_witness :
  let s := construct (Engine := Z) 2018 in
  let r := (next_draw s).1 in
  exists v : Q,
    (call s).1 = Some v /\
    (Qabs v == 2 * fade (inject_Z r))%Q /\
    (Qabs v <= 416062514520002)%Q /\
    (r = 0 -> (v == 0)%Q) /\
    (1 <= r -> (2 <= Qabs v)%Q) /\
    (exists k : Z, v == inject_Z (2 * k))%Q.
Proof. intros s. apply (call_output_magnitude s). reflexivity. Defined.

(** X7: draws 256 apart select the same pair of table entries, so their
    outputs carry the same sign and differ only through [fade]. *)
Theorem draws_256_apart (z : Z) :
  index_of (inject_Z (z + 256)) = index_of (inject_Z z) /\
  exists c v v' : Q,
    (c == 2 \/ c == - (2))%Q /\
    sample (inject_Z z) = Some v /\
    sample (inject_Z (z + 256)) = Some v' /\
    (v == c * fade (inject_Z z))%Q /\
    (v' == c * fade (inject_Z (z + 256)))%Q.
Proof.
  assert (Hland : Z.land (z + 256) 255 = Z.land z 255).
  { change 255 with (Z.ones 8). rewrite !Z.land_ones by lia.
    change 256 with (1 * 2 ^ 8). apply Z.mod_add. discriminate. }
  split; [rewrite !index_of_inject_Z; exact Hland|].
  destruct (sample_inject_Z z) as [v [Hv Heq]].
  destruct (sample_inject_Z (z + 256)) as [v' [Hv' Heq']].
  rewrite Hland in Heq'.
  exists (if Z.odd (entry (Z.land z 255 + 1)) then 2 else - (2))%Q, v, v'.
  split; [destruct (Z.odd _); [left|right]; reflexivity|].
  rewrite !fade_inject_Z. auto.
Qed.

Lemma draws_n_length
  {Engine : Type} `{UniformRandomBitGenerator Engine}
  (n : nat) (s : perlin_noise_generator Engine) :
  length (draws_n n s) = n.
Proof.
  revert s. induction n as [|n IH]; intros s; [reflexivity|].
  cbn [draws_n length]. rewrite IH. reflexivity.
Qed.

(** X8: [n] calls of a freshly constructed sampler, whatever the clock
    reading, produce [n] values, none of them by an out-of-range table
    access, each of magnitude at most [2 * fade 511]; the sampler ends
    with the distribution it was constructed with. *)
Theorem constructed_sampler_outputs
  {Engine : Type} `{UniformRandomBitGenerator Engine} (now : Z) (n : nat) :
  let out := call_n n (construct now) in
  length out.1 = n /\
  ready out.2 /\
  Forall (fun o => exists v : Q, o = Some v /\ (Qabs v <= 416062514520002)%Q) out.1.
Proof.
  intros out. subst out.
  pose proof (draws_n_range n (construct now) (construct_ready now)) as Hd.
  split; [|split].
  - rewrite call_n_outputs, length_fmap. apply draws_n_length.
  - apply call_n_ready, construct_ready.
  - rewrite call_n_outputs. apply Forall_fmap.
    eapply Forall_impl; [exact Hd|]. intros r Hr. cbn.
    destruct (sample_magnitude r Hr) as [v [Hv [_ [Hb _]]]].
    exists v. split; assumption.
Qed.

(** * The statistical moment *)

Import statistics.

(** ** The power loop *)

Lemma Qpower_succ (x : Q) (k : nat) :
  (x ^ Z.of_nat (S k) == x ^ Z.of_nat k * x)%Q.
Proof.
  rewrite Nat2Z.inj_succ. unfold Z.succ.
  rewrite Qpower_plus' by lia. rewrite Qpower_1_r. reflexivity.
Qed.

Lemma nthPower_loop_spec (k : nat) (x ret : Q) :
  (nthPower_loop k x ret == ret * x ^ Z.of_nat k)%Q.
Proof.
  revert ret. induction k as [|k IH]; intros ret.
  - cbn [nthPower_loop]. change (x ^ Z.of_nat 0)%Q with 1%Q. ring.
  - cbn [nthPower_loop]. rewrite IH, Qpower_succ. ring.
Qed.

Lemma nthPower_spec (N : Z) (x : Q) :
  1 <= N -> (nthPower N x == x ^ N)%Q.
Proof.
  intros HN. unfold nthPower. rewrite nthPower_loop_spec.
  rewrite Z2Nat.id by lia.
  replace N with (1 + (N - 1)) at 2 by lia.
  rewrite Qpower_plus' by lia. rewrite Qpower_1_r. reflexivity.
Qed.

Lemma nthPower_le_1 (N : Z) (x : Q) : N <= 1 -> nthPower N x = x.
Proof.
  intros HN. unfold nthPower.
  replace (Z.to_nat (N - 1)) with O by lia. reflexivity.
Qed.

#[export] Instance nthPower_proper (N : Z) : Proper (Qeq ==> Qeq) (nthPower N).
Proof.
  intros x y Hxy. unfold nthPower.
  rewrite !nthPower_loop_spec, Hxy. reflexivity.
Qed.

(** ** The accumulation as a sum *)

Lemma Qsum_map_ext (f g : Q -> Q) (l : list Q) :
  (forall x, f x == g x)%Q -> (Qsum (map f l) == Qsum (map g l))%Q.
Proof.
  intros Hfg. induction l as [|a l IH]; [reflexivity|].
  cbn [map Qsum fold_right]. fold (Qsum (map f l)) (Qsum (map g l)).
  rewrite IH, Hfg. reflexivity.
Qed.

Lemma accumulate_sum (N : Z) (f : SumDiffNthPower) (l : list Q) (init : Q) :
  (accumulate l init (SumDiffNthPower_call N f)
   == init + Qsum (map (fun x => nthPower N (x - mean_ f)) l))%Q.
Proof.
  unfold accumulate. revert init.
  induction l as [|a l IH]; intros init; cbn [fold_left map Qsum fold_right].
  - ring.
  - rewrite IH. unfold SumDiffNthPower_call, Qsum. ring.
Qed.

(** On a non-empty range the moment is the sum of the powered
    deviations over the element count. *)
Lemma nthMoment_value (N : Z) (l : list Q) (mean : Q) :
  l <> [] ->
  exists v : Q,
    nthMoment N l mean = Some v /\
    (v == Qsum (map (fun x => nthPower N (x - mean)) l)
          / inject_Z (Z.of_nat (length l)))%Q.
Proof.
  intros Hl. unfold nthMoment.
  destruct (Z.eqb_spec (Z.of_nat (length l)) 0) as [E|E].
  - destruct l; [congruence|]. cbn [length] in E. lia.
  - eexists. split; [reflexivity|].
    rewrite accumulate_sum. cbn [mean_].
    apply Qmult_comp; [ring|reflexivity].
Qed.

Lemma moment_mean_of_powers_aux (N : nat) (range : list Q) (mean : Q) :
  (1 <= N)%nat -> range <> [] ->
  exists v : Q,
    moment N range mean = Some v /\
    (v == Qsum (map (fun x => (x - mean) ^ Z.of_nat N) range)
          / inject_Z (Z.of_nat (length range)))%Q.
Proof.
  intros HN Hl.
  destruct (nthMoment_value (Z.of_nat N) range mean Hl) as [v [Hv Heq]].
  exists v. split; [exact Hv|]. rewrite Heq.
  apply Qmult_comp; [|reflexivity].
  apply Qsum_map_ext. intros x. apply nthPower_spec. lia.
Qed.

(** ** Properties of [nthPower] and [moment] *)

(** X9: for an order [N >= 1], [nthPower<N>(x)] is the [N]-th power of
    [x]. *)
Theorem nthPower_is_power (N : Z) (x : Q) :
  1 <= N -> (nthPower N x == x ^ N)%Q.
Proof. apply nthPower_spec. Qed.

Lemma nthPower_is_power_witness : (nthPower 5 (2 # 3) == (2 # 3) ^ 5)%Q.
Proof. apply (nthPower_is_power 5 (2 # 3)). lia. Defined.

(** X10: for an order [N <= 0] the loop of [nthPower] never runs and the
    result is [x] itself, not [x^0 = 1]; so [moment<0>] is the same
    function as [moment<1>]. *)
Theorem moment_order_zero (N : Z) (x : Q) (range : list Q) (mean : Q) :
  N <= 0 ->
  nthPower N x = x /\
  (nthPower 0 x == x ^ 0 <-> x == 1)%Q /\
  moment 0 range mean = moment 1 range mean.
Proof.
  intros HN. split; [apply nthPower_le_1; lia|].
  split; [|reflexivity].
  rewrite (nthPower_le_1 0 x) by lia. reflexivity.
Qed.

Lemma moment_order_zero_witness :
  nthPower (-3) (5 # 2) = (5 # 2) /\
  (nthPower 0 (5 # 2) == (5 # 2) ^ 0 <-> (5 # 2) == 1)%Q /\
  moment 0 [1; 2; 6]%Q 3 = moment 1 [1; 2; 6]%Q 3.
Proof. apply (moment_order_zero (-3) (5 # 2) [1; 2; 6]%Q 3). lia. Defined.

Lemma Qsum_nonneg (l : list Q) :
  Forall (fun x => 0 <= x)%Q l -> (0 <= Qsum l)%Q.
Proof.
  induction 1 as [|a l Ha _ IH]; cbn [Qsum fold_right].
  - discriminate.
  - fold (Qsum l). lra.
Qed.

Lemma Qpower_even_nonneg (x : Q) (k : nat) : (0 <= x ^ Z.of_nat (2 * k))%Q.
Proof.
  rewrite Nat2Z.inj_mul, Z.mul_comm, Qpower_mult.
  apply Qsqr_nonneg.
Qed.

Lemma inject_Z_length_pos (l : list Q) :
  l <> [] -> (0 < inject_Z (Z.of_nat (length l)))%Q.
Proof.
  intros Hl. destruct l as [|a l]; [congruence|].
  change 0%Q with (inject_Z 0). rewrite <- Zlt_Qlt. cbn [length]. lia.
Qed.



(** X15: adding the same constant to every element and to the mean
    leaves every moment unchanged. *)
Theorem moment_shift_invariant (N : nat) (range : list Q) (mean c : Q) :
  option_Forall2 Qeq
    (moment N (map (fun x => x + c)%Q range) (mean + c)%Q)
    (moment N range mean).
Proof.
  destruct (decide (range = [])) as [->|Hl]; [constructor|].
  assert (Hl' : map (fun x => x + c)%Q range <> [])
    by (destruct range; [congruence|discriminate]).
  destruct (nthMoment_value (Z.of_nat N) _ (mean + c)%Q Hl') as [v' [Hv' Heq']].
  destruct (nthMoment_value (Z.of_nat N) range mean Hl) as [v [Hv Heq]].
  unfold moment. rewrite Hv', Hv. constructor.
  rewrite Heq', Heq, map_map, length_map.
  apply Qmult_comp; [|reflexivity].
  apply Qsum_map_ext. intros x. apply nthPower_proper. ring.
Qed.

Lemma nthPower_zero (N : Z) : (nthPower N 0 == 0)%Q.
Proof. unfold nthPower. rewrite nthPower_loop_spec. ring. Qed.

Lemma Qsum_all_zero (l : list Q) :
  Forall (fun x => x == 0)%Q l -> (Qsum l == 0)%Q.
Proof.
  induction 1 as [|a l Ha _ IH]; cbn [Qsum fold_right]; [reflexivity|].
  fold (Qsum l). rewrite Ha, IH. ring.
Qed.

(** X19: a non-empty range whose elements all equal the mean has every
    moment equal to zero, the order 0 included. *)
Theorem moment_of_constant (N : nat) (range : list Q) (c : Q) :
  range <> [] -> Forall (fun x => x == c)%Q range ->
  exists v : Q, moment N range c = Some v /\ (v == 0)%Q.
Proof.
  intros Hl Hc.
  destruct (nthMoment_value (Z.of_nat N) range c Hl) as [v [Hv Heq]].
  exists v. split; [exact Hv|]. rewrite Heq.
  rewrite Qsum_all_zero; [unfold Qdiv; ring|].
  apply Forall_forall. intros y Hy.
  apply list_elem_of_In, in_map_iff in Hy. destruct Hy as [x [<- Hx]].
  apply list_elem_of_In in Hx.
  rewrite Forall_forall in Hc. rewrite (Hc x Hx).
  setoid_replace (c - c)%Q with 0%Q using relation Qeq by ring.
  apply nthPower_zero.
Qed.

Lemma moment_of_constant_witness :
  exists v : Q, moment 0 [7 # 2; 14 # 4; 7 # 2]%Q (7 # 2) = Some v /\ (v == 0)%Q.
Proof.
  apply (moment_of_constant 0 [7 # 2; 14 # 4; 7 # 2]%Q (7 # 2)); [discriminate|].
  repeat constructor.
Defined.
